(** * Verification of the CMS lock verifier and of the yielding flexible
    work gang of the HotSpot VM.

    Part 1 embeds [CMSLockVerifier::assert_locked]
    (gc_implementation/concurrentMarkSweep/cmsLockVerifier.cpp), non-PRODUCT
    build, where [assert] and [ShouldNotReachHere] are fatal.

    Part 2 embeds the task and gang types of utilities/yieldingWorkgroup.hpp
    together with a step relation for the gang's coordinator and workers. *)

From Stdlib Require Import Bool Arith Lia String List Permutation.
Import ListNotations.

(* ------------------------------------------------------------------ *)
(** ** Part 1: [CMSLockVerifier::assert_locked] *)

Module LockVerifier.

Local Open Scope string_scope.

(** The four thread queries the verifier uses ([is_VM_thread],
    [is_ConcurrentGC_thread], [is_Java_thread], [is_GC_task_thread]) are
    answered by the class of the thread object ([VMThread],
    [ConcurrentGCThread], [JavaThread], a [GangWorker] of a GC gang); any
    other thread (e.g. the watcher thread) answers none of them. *)
Inductive ThreadKind :=
  | VMThreadK
  | ConcurrentGCThreadK
  | JavaThreadK
  | GCTaskThreadK
  | OtherThreadK.

(** A [Thread*]: the object's identity and its class. *)
Record Thread := mkThread { tid : nat; kind : ThreadKind }.

Definition kind_eqb (a b : ThreadKind) : bool :=
  match a, b with
  | VMThreadK, VMThreadK | ConcurrentGCThreadK, ConcurrentGCThreadK
  | JavaThreadK, JavaThreadK | GCTaskThreadK, GCTaskThreadK
  | OtherThreadK, OtherThreadK => true
  | _, _ => false
  end.

Definition thread_eqb (a b : Thread) : bool :=
  Nat.eqb (tid a) (tid b) && kind_eqb (kind a) (kind b).

(** Pointer equality on possibly-NULL [Thread*]. *)
Definition ptr_eqb (a b : option Thread) : bool :=
  match a, b with
  | None, None => true
  | Some x, Some y => thread_eqb x y
  | _, _ => false
  end.

Definition is_VM_thread (t : Thread) : bool := kind_eqb (kind t) VMThreadK.
Definition is_ConcurrentGC_thread (t : Thread) : bool :=
  kind_eqb (kind t) ConcurrentGCThreadK.
Definition is_Java_thread (t : Thread) : bool := kind_eqb (kind t) JavaThreadK.
Definition is_GC_task_thread (t : Thread) : bool :=
  kind_eqb (kind t) GCTaskThreadK.

(** A [Mutex]: only its owner matters here ([_owner], NULL when unlocked). *)
Record Mutex := mkMutex { owner : option Thread }.

(** The runtime state the verifier reads. *)
Record Env := mkEnv {
  is_fully_initialized : bool;          (** [Universe::is_fully_initialized()] *)
  ParallelGCThreads : nat;
  current : Thread;                     (** [Thread::current()] *)
  vm_thread : option Thread;            (** [VMThread::vm_thread()] *)
  cmst : option Thread;                 (** [ConcurrentMarkSweepThread::cmst()] *)
  cms_thread_has_cms_token : bool;
  vm_thread_has_cms_token : bool
}.

(** Outcome of a call: it returns, or a fatal assertion fires with its
    message. *)
Inductive Outcome := Pass | Fatal (msg : string).

(** [assert(c, msg); k] *)
Definition assert (c : bool) (msg : string) (k : Outcome) : Outcome :=
  if c then k else Fatal msg.

(** [Monitor::is_locked()]: [_owner != NULL]. *)
Definition is_locked (m : Mutex) : bool :=
  match owner m with Some _ => true | None => false end.

(** [Monitor::owned_by_self()]: [_owner == Thread::current()]. *)
Definition owned_by_self (e : Env) (m : Mutex) : bool :=
  ptr_eqb (owner m) (Some (current e)).

(** Modelled from the spec: [assert_lock_strong] (runtime/mutexLocker.cpp,
    not part of this excerpt), "verify the calling thread holds [lock]". *)
Definition assert_lock_strong (e : Env) (m : Mutex) (k : Outcome) : Outcome :=
  assert (owned_by_self e m) "must own lock" k.

Definition ShouldNotReachHere : Outcome := Fatal "ShouldNotReachHere".

(** [CMSLockVerifier::assert_locked(lock, p_lock)]. *)
Definition assert_locked (e : Env) (lock p_lock : option Mutex) : Outcome :=
  if negb (is_fully_initialized e) then Pass else
  let myThread := current e in
  match lock with
  | None =>
      assert (match p_lock with None => true | Some _ => false end)
        "Unexpected state"
      (if is_ConcurrentGC_thread myThread then
         assert (ptr_eqb (Some myThread) (cmst e))
           "In CMS, CMS thread is the only Conc GC thread."
         (assert (cms_thread_has_cms_token e)
            "CMS thread should have CMS token" Pass)
       else if is_VM_thread myThread then
         assert (vm_thread_has_cms_token e)
           "VM thread should have CMS token" Pass
       else
         assert (is_GC_task_thread myThread) "Unexpected thread type" Pass)
  | Some l =>
      if Nat.eqb (ParallelGCThreads e) 0 then
        assert_lock_strong e l Pass
      else if is_VM_thread myThread || is_ConcurrentGC_thread myThread
              || is_Java_thread myThread then
        assert_lock_strong e l
          (match p_lock with
           | Some pl =>
               assert (negb (is_locked pl) || owned_by_self e pl)
                 "Possible race between this and parallel GC threads" Pass
           | None => Pass
           end)
      else if is_GC_task_thread myThread then
        assert (ptr_eqb (owner l) (vm_thread e) || ptr_eqb (owner l) (cmst e))
          "Should be locked by VM thread or CMS thread on my behalf" Pass
      else ShouldNotReachHere
  end.

(** A sample runtime: thread 1 is the VM thread, thread 2 the CMS thread,
    thread 3 a Java thread, thread 4 a GC task (gang) thread. *)
Definition vmT := mkThread 1 VMThreadK.
Definition cmsT := mkThread 2 ConcurrentGCThreadK.
Definition javaT := mkThread 3 JavaThreadK.
Definition workerT := mkThread 4 GCTaskThreadK.

Definition sample_env (init : bool) (pgc : nat) (cur : Thread) : Env :=
  mkEnv init pgc cur (Some vmT) (Some cmsT) true true.

End LockVerifier.

(* ------------------------------------------------------------------ *)
(** ** Part 2: the yielding flexible work gang *)

Module Gang.

(** [enum Status] of yieldingWorkgroup.hpp. *)
Inductive Status :=
  | INACTIVE | ACTIVE | YIELDING | YIELDED
  | ABORTING | ABORTED | COMPLETING | COMPLETED.

Definition status_eqb (a b : Status) : bool :=
  match a, b with
  | INACTIVE, INACTIVE | ACTIVE, ACTIVE | YIELDING, YIELDING
  | YIELDED, YIELDED | ABORTING, ABORTING | ABORTED, ABORTED
  | COMPLETING, COMPLETING | COMPLETED, COMPLETED => true
  | _, _ => false
  end.

(** [YieldingFlexibleGangTask]: [_status], [_gang] (a single gang is
    modelled, so the pointer is NULL or that gang), [_actual_size],
    [_requested_size]. *)
Record Task := mkTask {
  status : Status;
  gang : bool;
  actual_size : nat;
  requested_size : nat
}.

Definition set_status (t : Task) (s : Status) : Task :=
  mkTask s (gang t) (actual_size t) (requested_size t).

Definition set_actual_size (t : Task) (sz : nat) : Task :=
  mkTask (status t) (gang t) sz (requested_size t).

(** [set_gang]: [assert(_gang == NULL || gang == NULL, ...); _gang = gang;].
    [None] is the failed assertion. *)
Definition set_gang (t : Task) (g : bool) : option Task :=
  if gang t && g then None
  else Some (mkTask (status t) g (actual_size t) (requested_size t)).

(** Where a gang worker is in its loop: parked between dispatches, released
    and running [work(i)], parked at its yield point, or finished with the
    current task. *)
Inductive Phase := Parked | Running | WYielded | Finished.

Definition is_running (p : Phase) : bool :=
  match p with Running => true | _ => false end.
Definition is_yielded (p : Phase) : bool :=
  match p with WYielded => true | _ => false end.
Definition is_finished (p : Phase) : bool :=
  match p with Finished => true | _ => false end.
Definition is_engaged (p : Phase) : bool :=
  match p with Parked => false | _ => true end.

(** How a worker's call to the task's [work(i)] returns: its slice is done,
    it honoured a pending yield, or it honoured a pending abort. *)
Inductive WorkOutcome := WDone | WYield | WAbort.

(** The gang ([YieldingFlexibleWorkGang]) with the tasks that may be given
    to it; [task] is the gang's task binding ([task()], an index into
    [tasks]), [work_calls] the indices [i] of the calls [work(i)] made in
    the current round, and [waiting] whether the coordinator is blocked in
    [wait_for_gang()]. *)
Record State := mkState {
  tasks : list Task;
  total_workers : nat;
  task : option nat;
  active_workers : nat;
  yielded_workers : nat;
  workers : list Phase;
  work_calls : list nat;
  waiting : bool
}.

Inductive Event :=
  | EStart (k : nat)                    (** [start_task(tasks[k])] *)
  | EContinue (k : nat)                 (** [continue_task(tasks[k])] *)
  | EYield                              (** the gang's [yield()] request *)
  | EAbort                              (** [abort_task()] *)
  | EWork (i : nat) (o : WorkOutcome)   (** worker [i]'s [work(i)] returns *)
  | EBarrier.                           (** [wait_for_gang()] returns *)

(** A step either continues or halts the VM on a fatal assertion. *)
Inductive Res := Ok (s : State) | Halt (msg : string).

Fixpoint set_nth {A} (n : nat) (x : A) (l : list A) : list A :=
  match l, n with
  | [], _ => []
  | _ :: l', 0 => x :: l'
  | y :: l', S n' => y :: set_nth n' x l'
  end.

Definition countb {A} (f : A -> bool) (l : list A) : nat :=
  List.length (filter f l).

(** Indices (from [k]) of the running workers. *)
Fixpoint running_from (k : nat) (ws : list Phase) : list nat :=
  match ws with
  | [] => []
  | w :: ws' =>
      if is_running w then k :: running_from (S k) ws'
      else running_from (S k) ws'
  end.

(** Workers [0 .. n-1] released, the rest on the bench. *)
Definition release (n total : nat) : list Phase :=
  map (fun i => if i <? n then Running else Parked) (seq 0 total).

Definition with_tasks (s : State) (ts : list Task) : State :=
  mkState ts (total_workers s) (task s) (active_workers s)
    (yielded_workers s) (workers s) (work_calls s) (waiting s).

Definition set_task_status (s : State) (k : nat) (t : Task) (st : Status)
  : State :=
  with_tasks s (set_nth k (set_status t st) (tasks s)).

Definition outcome_allowed (o : WorkOutcome) (st : Status) : bool :=
  match o with
  | WDone => true
  | WYield => status_eqb st YIELDING
  | WAbort => status_eqb st ABORTING
  end.

(** Modelled from the spec: [YieldingFlexibleWorkGang::start_task]
    (utilities/yieldingWorkgroup.cpp, not part of this excerpt). "fails
    (precondition violation) if a task is already running on this gang.
    Resets [active_workers]/[yielded_workers], computes [actual_size =
    min(task.requested_size, total_workers)], transitions the task to
    [Active], releases [actual_size] workers to begin calling [work], then
    blocks the calling thread"; "[Completed] is terminal; re-dispatching a
    completed task must be a no-op"; "running with zero granted workers" is
    a fatal protocol violation.  [Aborted] is terminal only "for that
    invocation": dispatching an aborted task again starts a new invocation,
    which makes it [Active].  The task is bound to the gang through
    [set_gang]. *)
Definition start_task (s : State) (k : nat) : option Res :=
  match nth_error (tasks s) k with
  | None => None
  | Some t =>
      match task s with
      | Some _ => Some (Halt "Gang currently tied to a task"%string)
      | None =>
          if status_eqb (status t) COMPLETED then Some (Ok s) else
          let n := Nat.min (requested_size t) (total_workers s) in
          if n =? 0 then Some (Halt "No workers granted"%string) else
          match set_gang t true with
          | None => Some (Halt "Clobber without intermediate reset?"%string)
          | Some t1 =>
              let t2 := set_status (set_actual_size t1 n) ACTIVE in
              Some (Ok (mkState (set_nth k t2 (tasks s)) (total_workers s)
                          (Some k) n 0 (release n (total_workers s)) []
                          true))
          end
      end
  end.

(** Modelled from the spec: [YieldingFlexibleWorkGang::continue_task].
    "requires the task is currently [Yielded]; re-releases the same
    [actual_size] workers (each resumes its own callback state) and blocks
    as in [start]. Calling [continue] on a [Completed] task must return
    immediately with no worker released". *)
Definition continue_task (s : State) (k : nat) : option Res :=
  match nth_error (tasks s) k with
  | None => None
  | Some t =>
      if status_eqb (status t) COMPLETED then Some (Ok s) else
      match task s with
      | Some j =>
          if (j =? k) && status_eqb (status t) YIELDED && negb (waiting s)
          then
            Some (Ok (mkState (set_nth k (set_status t ACTIVE) (tasks s))
                        (total_workers s) (task s) (active_workers s) 0
                        (map (fun w => if is_engaged w then Running else w)
                           (workers s))
                        [] true))
          else Some (Halt "Incorrect usage"%string)
      | None => Some (Halt "Incorrect usage"%string)
      end
  end.

(** Modelled from the spec: the gang's [yield()]. "signals every active
    worker to honor a yield at their next checkpoint; does not itself
    block"; "a worker-visible yield request drives [Active -> Yielding]". *)
Definition yield (s : State) : option Res :=
  match task s with
  | None => Some (Ok s)
  | Some j =>
      match nth_error (tasks s) j with
      | None => None
      | Some t =>
          if status_eqb (status t) ACTIVE
          then Some (Ok (set_task_status s j t YIELDING))
          else Some (Ok s)
      end
  end.

(** Modelled from the spec: [abort_task()]. "requires a task is running;
    signals every active worker to honor an abort instead of continuing";
    "An abort request drives [Active/Yielding -> Aborting]".  Workers
    parked at their yield point unwind at once. *)
Definition abort_task (s : State) : option Res :=
  match task s with
  | None => Some (Halt "Inconsistency; should have task binding"%string)
  | Some j =>
      match nth_error (tasks s) j with
      | None => None
      | Some t =>
          if status_eqb (status t) ACTIVE || status_eqb (status t) YIELDING
          then
            Some (Ok (mkState (set_nth j (set_status t ABORTING) (tasks s))
                        (total_workers s) (task s) (active_workers s) 0
                        (map (fun w => if is_yielded w then Finished else w)
                           (workers s))
                        (work_calls s) (waiting s)))
          else Some (Ok s)
      end
  end.

(** Modelled from the spec: the worker loop. "on release, call the current
    task's [work(own index)]; on return from [work], report status
    (yielded / completed / aborted) back to the Coordinator's accounting and
    park again"; "once every active worker has honored [the yield], the task
    reaches [Yielded]", that is when the last report leaves
    [yielded_workers == active_workers]; the last report of a round without
    yield or abort starts the normal finish ([Active -> Completing]).  No
    other report changes the status: a yield request honoured by only some
    of the workers leaves the task [Yielding], and the coordinator blocked
    (an abort can still end the round). *)
Definition worker_report (s : State) (i : nat) (o : WorkOutcome)
  : option Res :=
  match task s with
  | None => None
  | Some j =>
      match nth_error (tasks s) j, nth_error (workers s) i with
      | Some t, Some Running =>
          if waiting s && outcome_allowed o (status t) then
            let ws := set_nth i (match o with WYield => WYielded
                                         | _ => Finished end) (workers s) in
            let y := yielded_workers s
                     + match o with WYield => 1 | _ => 0 end in
            let st :=
              if existsb is_running ws then status t else
              match status t with
              | ACTIVE => COMPLETING
              | YIELDING =>
                  if y =? active_workers s then YIELDED else YIELDING
              | st0 => st0
              end in
            Some (Ok (mkState (set_nth j (set_status t st) (tasks s))
                        (total_workers s) (task s) (active_workers s) y ws
                        (work_calls s ++ [i]) (waiting s)))
          else None
      | _, _ => None
      end
  end.

(** Modelled from the spec: [reset()]. "clears [active_workers]/
    [yielded_workers] and detaches the task"; the task's back pointer is
    cleared with [set_gang(NULL)]. *)
Definition reset (s : State) (j : nat) (t : Task) : option Res :=
  match set_gang t false with
  | None => Some (Halt "Clobber without intermediate reset?"%string)
  | Some t1 =>
      Some (Ok (mkState (set_nth j t1 (tasks s)) (total_workers s) None 0 0
                  (map (fun _ => Parked) (workers s)) (work_calls s) false))
  end.

(** Modelled from the spec: [wait_for_gang()] returning. It "must not return
    until every one of [the active workers] has either reached
    [yielded_workers == active_workers] (round yielded) or signaled terminal
    completion/abort"; the round then ends [Yielded], [Completing ->
    Completed] or [Aborting -> Aborted], a finished task being detached. *)
Definition wait_for_gang (s : State) : option Res :=
  match task s with
  | None => None
  | Some j =>
      match nth_error (tasks s) j with
      | None => None
      | Some t =>
          if waiting s && negb (existsb is_running (workers s)) then
            match status t with
            | YIELDED =>
                if yielded_workers s =? active_workers s then
                  Some (Ok (mkState (tasks s) (total_workers s) (task s)
                              (active_workers s) (yielded_workers s)
                              (workers s) (work_calls s) false))
                else None
            | COMPLETING => reset s j (set_status t COMPLETED)
            | ABORTING => reset s j (set_status t ABORTED)
            | _ => None
            end
          else None
      end
  end.

(** One step of the gang: [None] when the event cannot happen in [s]. *)
Definition step (s : State) (e : Event) : option Res :=
  match e with
  | EStart k => start_task s k
  | EContinue k => continue_task s k
  | EYield => yield s
  | EAbort => abort_task s
  | EWork i o => worker_report s i o
  | EBarrier => wait_for_gang s
  end.

Fixpoint run (s : State) (evs : list Event) : option Res :=
  match evs with
  | [] => Some (Ok s)
  | e :: evs' =>
      match step s e with
      | Some (Ok s') => run s' evs'
      | r => r
      end
  end.

(** A gang of [n] workers, and tasks constructed with the requested sizes
    [reqs] ([_status(INACTIVE)], [_gang(NULL)]). *)
Definition init (n : nat) (reqs : list nat) : State :=
  mkState (map (fun r => mkTask INACTIVE false 0 r) reqs) n None 0 0
    (repeat Parked n) [] false.

Inductive reachable (n : nat) (reqs : list nat) : State -> Prop :=
  | reach_init : reachable n reqs (init n reqs)
  | reach_step s e s' :
      reachable n reqs s -> step s e = Some (Ok s') -> reachable n reqs s'.

(** What holds in every reachable state of a gang of [N] workers. *)
Record inv (N : nat) (s : State) : Prop := {
  inv_total : total_workers s = N;
  inv_len : length (workers s) = N;
  inv_yielded : yielded_workers s = countb is_yielded (workers s);
  inv_active : active_workers s = countb is_engaged (workers s);
  inv_unbound : forall k t, nth_error (tasks s) k = Some t -> task s <> Some k ->
    gang t = false /\
    (status t = INACTIVE \/ status t = COMPLETED \/ status t = ABORTED);
  inv_bound : forall j, task s = Some j -> exists t,
    nth_error (tasks s) j = Some t /\ gang t = true /\
    (status t = ACTIVE -> yielded_workers s = 0) /\
    (status t = YIELDED -> yielded_workers s = active_workers s) /\
    (status t = ABORTING -> yielded_workers s = 0) /\
    (existsb is_running (workers s) = true ->
     status t = ACTIVE \/ status t = YIELDING \/ status t = ABORTING)
}.

(** The status queries of [YieldingFlexibleGangTask]. *)
Definition yielded (t : Task) : bool := status_eqb (status t) YIELDED.
Definition completed (t : Task) : bool := status_eqb (status t) COMPLETED.
Definition aborted (t : Task) : bool := status_eqb (status t) ABORTED.
Definition active (t : Task) : bool := status_eqb (status t) ACTIVE.

(** Successive calls [set_gang(g1); set_gang(g2); ...] on one task, the
    first failed assertion ending the sequence. *)
Fixpoint set_gangs (t : Task) (gs : list bool) : option Task :=
  match gs with
  | [] => Some t
  | g :: gs' =>
      match set_gang t g with
      | None => None
      | Some t' => set_gangs t' gs'
      end
  end.

(** Whether a sequence of [set_gang] arguments, starting from a task whose
    gang pointer is [cur], ever sets a non-null gang over a non-null one. *)
Fixpoint clobbers (cur : bool) (gs : list bool) : bool :=
  match gs with
  | [] => false
  | g :: gs' => (cur && g) || clobbers g gs'
  end.

(** During the round of task [k] granted [n] workers, the coordinator stays
    blocked and each index [0 .. n-1] has either had its [work] call or is
    still running it. *)
Definition in_round (k n : nat) (s : State) : Prop :=
  waiting s = true /\ task s = Some k /\
  Permutation (work_calls s ++ running_from 0 (workers s)) (seq 0 n).

End Gang.

(* ------------------------------------------------------------------ *)
(** ** Facts about [CMSLockVerifier::assert_locked] *)

Module LockVerifierFacts.
Import LockVerifier.

(** Case analysis on every boolean test of the goal. *)
Ltac split_ifs :=
  repeat match goal with
         | |- context [if ?c then _ else _] => destruct c
         end.

Lemma kind_eqb_eq a b : kind_eqb a b = true <-> a = b.
Proof. destruct a, b; simpl; split; congruence. Qed.

Lemma thread_eqb_eq x y : thread_eqb x y = true <-> x = y.
Proof.
  destruct x as [i a], y as [j b]; unfold thread_eqb; simpl.
  rewrite andb_true_iff, Nat.eqb_eq, kind_eqb_eq; split.
  - intros [-> ->]; reflexivity.
  - intros H; inversion H; auto.
Qed.

Lemma ptr_eqb_eq a b : ptr_eqb a b = true <-> a = b.
Proof.
  destruct a, b; simpl; try (split; congruence).
  rewrite thread_eqb_eq; split; congruence.
Qed.

Lemma assert_Pass c m k : assert c m k = Pass <-> c = true /\ k = Pass.
Proof. destruct c; simpl; intuition congruence. Qed.


(** ** C9: before full initialization nothing is checked *)

(** Claim C9: while [Universe::is_fully_initialized()] is false,
    [assert_locked] returns at once, whatever the locks, the thread and the
    token state; no verification failure can be raised. *)
Theorem assert_locked_uninitialized_passes (e : Env) (lock p_lock : option Mutex)
  (Hinit : is_fully_initialized e = false) :
  assert_locked e lock p_lock = Pass.
Proof. unfold assert_locked; rewrite Hinit; reflexivity. Qed.

Lemma assert_locked_uninitialized_passes_witness :
  is_fully_initialized (mkEnv false 4 (mkThread 9 OtherThreadK) None None
                          false false) = false /\
  assert_locked (mkEnv false 4 (mkThread 9 OtherThreadK) None None false false)
    (Some (mkMutex (Some javaT))) (Some (mkMutex (Some javaT))) = Pass.
Proof.
  split; [reflexivity|].
  apply (assert_locked_uninitialized_passes
           (mkEnv false 4 (mkThread 9 OtherThreadK) None None false false)).
  reflexivity.
Defined.

(** ** C10: a null primary lock requires a null secondary lock *)

(** Claim C10, as stated: every call with [lock == NULL] and
    [p_lock != NULL] takes the fatal path.  False before full
    initialization, where the call returns. *)
Lemma null_lock_secondary_counterexample :
  assert_locked (sample_env false 1 javaT) None (Some (mkMutex None)) = Pass.
Proof. reflexivity. Qed.

(** Claim C10, amended: once the runtime is fully initialized, a call with
    [lock == NULL] and [p_lock != NULL] fails the assertion
    "Unexpected state" before any role check, whatever the calling thread;
    and a call meeting the precondition ([lock == NULL] implies
    [p_lock == NULL]) never fails that assertion. *)
Theorem null_lock_requires_null_secondary (e : Env)
  (Hinit : is_fully_initialized e = true) :
  (forall m : Mutex,
     assert_locked e None (Some m) = Fatal "Unexpected state"%string) /\
  (forall lock p_lock : option Mutex,
     (lock = None -> p_lock = None) ->
     assert_locked e lock p_lock <> Fatal "Unexpected state"%string).
Proof.
  split.
  - intros m; unfold assert_locked; rewrite Hinit; reflexivity.
  - intros lock p_lock Hpre; unfold assert_locked; rewrite Hinit; simpl.
    destruct lock as [l|].
    + unfold assert_lock_strong, assert, ShouldNotReachHere.
      destruct p_lock; split_ifs; intro H; inversion H.
    + rewrite (Hpre eq_refl); unfold assert; simpl.
      split_ifs; intro H; inversion H.
Qed.

Lemma null_lock_requires_null_secondary_witness :
  is_fully_initialized (sample_env true 1 workerT) = true /\
  assert_locked (sample_env true 1 workerT) None (Some (mkMutex None))
    = Fatal "Unexpected state"%string.
Proof.
  split; [reflexivity|].
  apply (proj1 (null_lock_requires_null_secondary (sample_env true 1 workerT)
                  eq_refl)).
Defined.


(** ** C6: the null-lock (token-protected) case *)

(** Claim C6, as stated: with [lock == NULL] the call passes exactly when
    the caller is the VM, CMS or a GC task thread (with the token
    conditions).  False twice over: before full initialization a Java
    thread passes, and a GC task thread fails when [p_lock] is non-null. *)
Lemma null_lock_roles_counterexample :
  assert_locked (sample_env false 1 javaT) None None = Pass /\
  assert_locked (sample_env true 1 workerT) None (Some (mkMutex None)) <> Pass.
Proof. split; [reflexivity | discriminate]. Qed.

(** Claim C6, amended: once the runtime is fully initialized, a call with
    [lock == NULL] and [p_lock == NULL] passes exactly when the caller is
    the CMS thread that is [cmst()] and holds the CMS token, or the VM
    thread holding the CMS token, or a GC task (worker) thread; any other
    thread (a Java thread or any other kind) takes the fatal path. *)
Theorem null_lock_role_check (e : Env)
  (Hinit : is_fully_initialized e = true) :
  assert_locked e None None = Pass <->
  (kind (current e) = ConcurrentGCThreadK /\ cmst e = Some (current e) /\
   cms_thread_has_cms_token e = true) \/
  (kind (current e) = VMThreadK /\ vm_thread_has_cms_token e = true) \/
  kind (current e) = GCTaskThreadK.
Proof.
  unfold assert_locked; rewrite Hinit; cbn -[ptr_eqb].
  unfold is_ConcurrentGC_thread, is_VM_thread, is_GC_task_thread.
  destruct (kind (current e)); cbn -[ptr_eqb];
    rewrite ?assert_Pass, ?ptr_eqb_eq; intuition (try congruence).
Qed.

Lemma null_lock_role_check_witness :
  is_fully_initialized (sample_env true 1 cmsT) = true /\
  assert_locked (sample_env true 1 cmsT) None None = Pass.
Proof.
  split; [reflexivity|].
  apply (proj2 (null_lock_role_check (sample_env true 1 cmsT) eq_refl)).
  left; repeat split.
Defined.

(** ** C5: delegation for GC task threads *)

(** Claim C5, as stated: for a GC task thread with parallel GC threads and
    a non-null lock the check passes exactly when the lock's owner is the
    VM or CMS thread.  False before full initialization: a lock held by a
    Java thread passes. *)
Lemma worker_delegation_counterexample :
  assert_locked (sample_env false 1 workerT)
    (Some (mkMutex (Some javaT))) None = Pass /\
  Some javaT <> vm_thread (sample_env false 1 workerT) /\
  Some javaT <> cmst (sample_env false 1 workerT).
Proof. repeat split; discriminate. Qed.

(** Claim C5, amended: once the runtime is fully initialized, with
    [ParallelGCThreads > 0] and a non-null [lock], a GC task thread passes
    exactly when [lock->owner()] is [VMThread::vm_thread()] or
    [ConcurrentMarkSweepThread::cmst()] (whatever [p_lock]); so, the VM
    thread and CMS thread being of their own classes, a lock held by the
    worker itself fails the check. *)
Theorem worker_lock_delegation (e : Env) (l : Mutex) (p_lock : option Mutex)
  (Hinit : is_fully_initialized e = true)
  (Hpar : ParallelGCThreads e <> 0)
  (Hworker : kind (current e) = GCTaskThreadK) :
  (assert_locked e (Some l) p_lock = Pass <->
   owner l = vm_thread e \/ owner l = cmst e) /\
  ((forall v, vm_thread e = Some v -> kind v = VMThreadK) ->
   (forall c, cmst e = Some c -> kind c = ConcurrentGCThreadK) ->
   owner l = Some (current e) -> assert_locked e (Some l) p_lock <> Pass).
Proof.
  assert (Hpass : assert_locked e (Some l) p_lock = Pass <->
                  owner l = vm_thread e \/ owner l = cmst e).
  { unfold assert_locked; rewrite Hinit; simpl.
    apply Nat.eqb_neq in Hpar; rewrite Hpar.
    unfold is_VM_thread, is_ConcurrentGC_thread, is_Java_thread,
      is_GC_task_thread; rewrite Hworker; simpl.
    rewrite assert_Pass, orb_true_iff, !ptr_eqb_eq; tauto. }
  split; [exact Hpass|].
  intros Hvm Hcms Hown Hp; apply Hpass in Hp; rewrite Hown in Hp.
  destruct Hp as [Hp | Hp]; symmetry in Hp;
    [apply Hvm in Hp | apply Hcms in Hp]; congruence.
Qed.

Lemma worker_lock_delegation_witness :
  is_fully_initialized (sample_env true 1 workerT) = true /\
  ParallelGCThreads (sample_env true 1 workerT) <> 0 /\
  kind (current (sample_env true 1 workerT)) = GCTaskThreadK /\
  assert_locked (sample_env true 1 workerT) (Some (mkMutex (Some vmT))) None
    = Pass.
Proof.
  split; [reflexivity|]; split; [discriminate|]; split; [reflexivity|].
  apply (proj1 (worker_lock_delegation (sample_env true 1 workerT)
                  (mkMutex (Some vmT)) None eq_refl ltac:(discriminate)
                  eq_refl)).
  left; reflexivity.
Defined.

(** ** C7: direct ownership for the other roles *)

(** Claim C7, as stated: with [ParallelGCThreads == 0] and a non-null lock
    the check passes exactly when the caller holds the lock.  False before
    full initialization: a Java thread passes on a lock the VM thread
    holds. *)
Lemma direct_lock_counterexample :
  assert_locked (sample_env false 0 javaT) (Some (mkMutex (Some vmT))) None
    = Pass /\
  Some vmT <> Some (current (sample_env false 0 javaT)).
Proof. split; [reflexivity | discriminate]. Qed.

(** Claim C7, amended: once the runtime is fully initialized and [lock] is
    non-null: without parallel GC threads the call passes exactly when the
    caller owns [lock] ([p_lock] ignored); with parallel GC threads, for a
    VM, concurrent GC or Java thread, it passes exactly when the caller owns
    [lock] and a non-null [p_lock] is unlocked or owned by the caller. *)
Theorem direct_lock_check (e : Env) (l : Mutex) (p_lock : option Mutex)
  (Hinit : is_fully_initialized e = true) :
  (ParallelGCThreads e = 0 ->
   (assert_locked e (Some l) p_lock = Pass <-> owner l = Some (current e))) /\
  (ParallelGCThreads e <> 0 ->
   kind (current e) = VMThreadK \/ kind (current e) = ConcurrentGCThreadK \/
   kind (current e) = JavaThreadK ->
   (assert_locked e (Some l) p_lock = Pass <->
    owner l = Some (current e) /\
    (forall pl, p_lock = Some pl ->
       owner pl = None \/ owner pl = Some (current e)))).
Proof.
  unfold assert_locked; rewrite Hinit; simpl; split.
  - intros H0; rewrite H0; simpl.
    unfold assert_lock_strong, owned_by_self; rewrite assert_Pass, ptr_eqb_eq.
    tauto.
  - intros Hpar Hrole; apply Nat.eqb_neq in Hpar; rewrite Hpar.
    assert (Hr : (is_VM_thread (current e) || is_ConcurrentGC_thread (current e)
                  || is_Java_thread (current e)) = true).
    { unfold is_VM_thread, is_ConcurrentGC_thread, is_Java_thread.
      destruct Hrole as [H|[H|H]]; rewrite H; reflexivity. }
    rewrite Hr; unfold assert_lock_strong, owned_by_self.
    rewrite assert_Pass, ptr_eqb_eq.
    destruct p_lock as [pl|].
    + rewrite assert_Pass, orb_true_iff, negb_true_iff, ptr_eqb_eq.
      unfold is_locked; destruct (owner pl) as [o|] eqn:Ho.
      * split.
        -- intros [H1 [H2 _]]; split; [exact H1|].
           intros pl' Hpl; inversion Hpl; subst.
           destruct H2 as [H2|H2]; [discriminate|right; congruence].
        -- intros [H1 H2]; split; [exact H1|]; split; [|reflexivity].
           destruct (H2 pl eq_refl) as [H3|H3]; [congruence|right; congruence].
      * split.
        -- intros [H1 _]; split; [exact H1|].
           intros pl' Hpl; inversion Hpl; subst; auto.
        -- intros [H1 _]; split; [exact H1|]; split; [left|]; reflexivity.
    + split.
      * intros [H1 _]; split; [exact H1|]; discriminate.
      * intros [H1 _]; split; [exact H1|reflexivity].
Qed.

Lemma direct_lock_check_witness :
  is_fully_initialized (sample_env true 4 javaT) = true /\
  assert_locked (sample_env true 4 javaT) (Some (mkMutex (Some javaT)))
    (Some (mkMutex None)) = Pass.
Proof.
  split; [reflexivity|].
  apply (proj2 (direct_lock_check (sample_env true 4 javaT)
                  (mkMutex (Some javaT)) (Some (mkMutex None)) eq_refl)
           ltac:(discriminate) (or_intror (or_intror eq_refl))).
  split; [reflexivity|]. intros pl Hpl; inversion Hpl; left; reflexivity.
Defined.

End LockVerifierFacts.

(* ------------------------------------------------------------------ *)
(** ** Facts about the work gang *)

Module GangFacts.
Import Gang.

(** *** Lists updated by index and counted *)

Lemma set_nth_length {A} i (x : A) l : length (set_nth i x l) = length l.
Proof. revert i; induction l as [|a l IH]; intros [|i]; simpl; auto. Qed.

Lemma nth_error_set_nth {A} i j (x y : A) l :
  nth_error (set_nth i x l) j = Some y ->
  (i = j /\ y = x) \/ (i <> j /\ nth_error l j = Some y).
Proof.
  revert i j; induction l as [|a l IH]; intros [|i] [|j] H; simpl in H.
  - discriminate.
  - discriminate.
  - discriminate.
  - discriminate.
  - left; split; [reflexivity | inversion H; reflexivity].
  - right; split; [discriminate | exact H].
  - right; split; [discriminate | exact H].
  - destruct (IH i j H) as [[-> ->]|[Hne Hj]]; [left; auto|right; auto].
Qed.

Lemma nth_error_set_nth_eq {A} i (x : A) l :
  i < length l -> nth_error (set_nth i x l) i = Some x.
Proof.
  revert i; induction l as [|a l IH]; intros [|i] Hi; simpl in *;
    try lia; auto.
  apply IH; lia.
Qed.

Lemma nth_error_set_nth_neq {A} i j (x : A) l :
  i <> j -> nth_error (set_nth i x l) j = nth_error l j.
Proof.
  revert i j; induction l as [|a l IH]; intros [|i] [|j] Hne; simpl;
    auto; congruence.
Qed.

Lemma countb_set_nth {A} (f : A -> bool) i x y l :
  nth_error l i = Some x ->
  countb f (set_nth i y l) + (if f x then 1 else 0)
  = countb f l + (if f y then 1 else 0).
Proof.
  unfold countb; revert i; induction l as [|a l IH]; intros [|i] Hi;
    simpl in *; try discriminate.
  - inversion Hi; subst; destruct (f x), (f y); simpl; lia.
  - specialize (IH i Hi); destruct (f a); simpl; lia.
Qed.

Lemma countb_map {A B} (f : B -> bool) (g : A -> B) l :
  countb f (map g l) = countb (fun a => f (g a)) l.
Proof.
  unfold countb; induction l as [|a l IH]; simpl; auto.
  destruct (f (g a)); simpl; auto.
Qed.

Lemma countb_ext {A} (f g : A -> bool) l :
  (forall a, f a = g a) -> countb f l = countb g l.
Proof.
  unfold countb; intros H; induction l as [|a l IH]; simpl; auto.
  rewrite H; destruct (g a); simpl; auto.
Qed.

Lemma countb_false {A} (l : list A) : countb (fun _ => false) l = 0.
Proof. unfold countb; induction l; simpl; auto. Qed.

Lemma countb_le_length {A} (f : A -> bool) l : countb f l <= length l.
Proof.
  unfold countb; induction l as [|a l IH]; simpl; auto.
  destruct (f a); simpl; lia.
Qed.

(** Every worker that is not parked is running, yielded or finished. *)
Lemma countb_engaged_split ws :
  countb is_engaged ws
  = countb is_running ws + countb is_yielded ws + countb is_finished ws.
Proof.
  unfold countb; induction ws as [|w ws IH]; simpl; auto.
  destruct w; simpl; lia.
Qed.

Lemma countb_running_none ws :
  existsb is_running ws = false -> countb is_running ws = 0.
Proof.
  unfold countb; induction ws as [|w ws IH]; simpl; auto.
  destruct w; simpl; auto; discriminate.
Qed.

Lemma length_running_from k ws :
  length (running_from k ws) = countb is_running ws.
Proof.
  unfold countb; revert k; induction ws as [|w ws IH]; intros k; simpl; auto.
  destruct w; simpl; auto.
Qed.

Lemma running_from_none k ws :
  existsb is_running ws = false -> running_from k ws = [].
Proof.
  revert k; induction ws as [|w ws IH]; intros k; simpl; auto.
  destruct w; simpl; auto; discriminate.
Qed.

(** Replacing a running worker by a non-running phase removes its index. *)
Lemma running_from_set_nth k i p ws :
  nth_error ws i = Some Running -> is_running p = false ->
  Permutation (running_from k ws) ((k + i) :: running_from k (set_nth i p ws)).
Proof.
  revert k i; induction ws as [|w ws IH]; intros k [|i] Hi Hp; simpl in *;
    try discriminate.
  - inversion Hi; subst; simpl; rewrite Hp, Nat.add_0_r; reflexivity.
  - specialize (IH (S k) i Hi Hp); replace (k + S i) with (S k + i) by lia.
    destruct (is_running w).
    + rewrite IH; apply perm_swap.
    + exact IH.
Qed.

Lemma running_from_release_high n k m :
  n <= k ->
  running_from k (map (fun i => if i <? n then Running else Parked) (seq k m))
  = [].
Proof.
  revert k; induction m as [|m IH]; intros k Hk; simpl; auto.
  destruct (Nat.ltb_spec k n); [lia|]; simpl; apply IH; lia.
Qed.

Lemma running_from_release_seq n k m :
  k <= n -> n <= k + m ->
  running_from k (map (fun i => if i <? n then Running else Parked) (seq k m))
  = seq k (n - k).
Proof.
  revert k; induction m as [|m IH]; intros k H1 H2; simpl.
  - replace (n - k) with 0 by lia; reflexivity.
  - destruct (Nat.ltb_spec k n); simpl.
    + rewrite IH by lia. replace (n - k) with (S (n - S k)) by lia.
      reflexivity.
    + replace (n - k) with 0 by lia. apply running_from_release_high; lia.
Qed.

Lemma running_from_release n total :
  n <= total -> running_from 0 (release n total) = seq 0 n.
Proof.
  intros H; unfold release; rewrite running_from_release_seq by lia.
  rewrite Nat.sub_0_r; reflexivity.
Qed.

Lemma release_length n total : length (release n total) = total.
Proof. unfold release; rewrite length_map, length_seq; reflexivity. Qed.

Lemma release_engaged n total :
  n <= total -> countb is_engaged (release n total) = n.
Proof.
  intros H.
  assert (Hr : countb is_engaged (release n total)
               = countb is_running (release n total)).
  { unfold release; rewrite !countb_map; apply countb_ext.
    intros a; destruct (a <? n); reflexivity. }
  rewrite Hr, <- (length_running_from 0), running_from_release by exact H.
  apply length_seq.
Qed.

Lemma release_yielded n total : countb is_yielded (release n total) = 0.
Proof.
  unfold release; rewrite countb_map.
  rewrite (countb_ext _ (fun _ => false)); [apply countb_false|].
  intros a; destruct (a <? n); reflexivity.
Qed.

(** *** The gang invariant *)

Lemma status_eqb_eq a b : status_eqb a b = true <-> a = b.
Proof. destruct a, b; simpl; split; congruence. Qed.

Lemma status_eqb_spec_false a b : a <> b -> status_eqb a b = false.
Proof. intros H; destruct (status_eqb a b) eqn:E; [|reflexivity].
  apply status_eqb_eq in E; contradiction. Qed.

Lemma set_gang_some t g t1 :
  set_gang t g = Some t1 ->
  gang t1 = g /\ status t1 = status t /\ (g = true -> gang t = false).
Proof.
  unfold set_gang; destruct (gang t), g; simpl; intros H; inversion H;
    subst; simpl; auto; repeat split; discriminate.
Qed.

Lemma nth_error_Some_lt {A} (l : list A) i x :
  nth_error l i = Some x -> i < length l.
Proof. intros H; apply nth_error_Some; congruence. Qed.


Lemma inv_init N reqs : inv N (init N reqs).
Proof.
  constructor; simpl.
  - reflexivity.
  - apply repeat_length.
  - unfold countb; induction N; simpl; auto.
  - unfold countb; induction N; simpl; auto.
  - intros k t Hk _; apply nth_error_In, in_map_iff in Hk.
    destruct Hk as [r [<- _]]; simpl; auto.
  - discriminate.
Qed.


Lemma inv_start N s k s' :
  inv N s -> start_task s k = Some (Ok s') -> inv N s'.
Proof.
  intros Hi; unfold start_task.
  destruct (nth_error (tasks s) k) as [t|] eqn:Ht; [|discriminate].
  destruct (task s) as [j|] eqn:Hj; [discriminate|].
  destruct (status_eqb (status t) COMPLETED);
    [intros H; inversion H; subst; exact Hi|].
  set (n := Nat.min (requested_size t) (total_workers s)).
  destruct (n =? 0); [discriminate|].
  destruct (set_gang t true) as [t1|] eqn:Hg; [|discriminate].
  intros H; inversion H; subst s'; clear H.
  apply set_gang_some in Hg as [Hg1 [Hg2 _]].
  assert (Hn : n <= total_workers s) by (unfold n; lia).
  constructor; simpl.
  - apply (inv_total _ _ Hi).
  - rewrite release_length; apply (inv_total _ _ Hi).
  - rewrite release_yielded; reflexivity.
  - rewrite release_engaged; auto.
  - intros k' t' Hk' Hne.
    destruct (nth_error_set_nth _ _ _ _ _ Hk') as [[-> _]|[_ Hold]];
      [congruence|].
    apply (inv_unbound _ _ Hi k' t' Hold); rewrite Hj; discriminate.
  - intros j' Hj'; inversion Hj'; subst j'.
    eexists; split; [apply nth_error_set_nth_eq; eapply nth_error_Some_lt;
                     exact Ht|].
    simpl; repeat split; auto; discriminate.
Qed.

Lemma inv_continue N s k s' :
  inv N s -> continue_task s k = Some (Ok s') -> inv N s'.
Proof.
  intros Hi; unfold continue_task.
  destruct (nth_error (tasks s) k) as [t|] eqn:Ht; [|discriminate].
  destruct (status_eqb (status t) COMPLETED);
    [intros H; inversion H; subst; exact Hi|].
  destruct (task s) as [j|] eqn:Hj; [|discriminate].
  destruct ((j =? k) && status_eqb (status t) YIELDED && negb (waiting s))
    eqn:Hc; [|discriminate].
  apply andb_true_iff in Hc as [Hc _]; apply andb_true_iff in Hc as [Hjk _].
  apply Nat.eqb_eq in Hjk; subst j.
  intros H; inversion H; subst s'; clear H.
  destruct (inv_bound _ _ Hi k Hj) as [t0 [Ht0 [Hgang _]]].
  rewrite Ht in Ht0; inversion Ht0; subst t0.
  constructor; simpl.
  - apply (inv_total _ _ Hi).
  - rewrite length_map; apply (inv_len _ _ Hi).
  - rewrite countb_map, (countb_ext _ (fun _ => false)), countb_false;
      [reflexivity|]. intros [| | |]; reflexivity.
  - rewrite (inv_active _ _ Hi), countb_map; apply countb_ext.
    intros [| | |]; reflexivity.
  - intros k' t' Hk' Hne.
    destruct (nth_error_set_nth _ _ _ _ _ Hk') as [[-> _]|[_ Hold]];
      [try rewrite Hj in Hne; congruence|].
    apply (inv_unbound _ _ Hi k' t' Hold); congruence.
  - intros j' Hj'; try rewrite Hj in Hj'; inversion Hj'; subst j'.
    eexists; split; [apply nth_error_set_nth_eq; eapply nth_error_Some_lt;
                     exact Ht|].
    simpl; repeat split; auto; discriminate.
Qed.

Lemma inv_yield N s s' : inv N s -> yield s = Some (Ok s') -> inv N s'.
Proof.
  intros Hi; unfold yield.
  destruct (task s) as [j|] eqn:Hj; [|intros H; inversion H; subst; exact Hi].
  destruct (nth_error (tasks s) j) as [t|] eqn:Ht; [|discriminate].
  destruct (status_eqb (status t) ACTIVE) eqn:Hst;
    [|intros H; inversion H; subst; exact Hi].
  intros H; inversion H; subst s'; clear H.
  destruct (inv_bound _ _ Hi j Hj) as [t0 [Ht0 [Hgang _]]].
  rewrite Ht in Ht0; inversion Ht0; subst t0.
  unfold set_task_status, with_tasks.
  constructor; simpl; try apply Hi.
  - intros k' t' Hk' Hne.
    destruct (nth_error_set_nth _ _ _ _ _ Hk') as [[-> _]|[_ Hold]];
      [try rewrite Hj in Hne; congruence|].
    apply (inv_unbound _ _ Hi k' t' Hold); congruence.
  - intros j' Hj'; try rewrite Hj in Hj'; inversion Hj'; subst j'.
    eexists; split; [apply nth_error_set_nth_eq; eapply nth_error_Some_lt;
                     exact Ht|].
    simpl; repeat split; auto; discriminate.
Qed.

Lemma inv_abort N s s' : inv N s -> abort_task s = Some (Ok s') -> inv N s'.
Proof.
  intros Hi; unfold abort_task.
  destruct (task s) as [j|] eqn:Hj; [|discriminate].
  destruct (nth_error (tasks s) j) as [t|] eqn:Ht; [|discriminate].
  destruct (status_eqb (status t) ACTIVE || status_eqb (status t) YIELDING);
    [|intros H; inversion H; subst; exact Hi].
  intros H; inversion H; subst s'; clear H.
  destruct (inv_bound _ _ Hi j Hj) as [t0 [Ht0 [Hgang _]]].
  rewrite Ht in Ht0; inversion Ht0; subst t0.
  constructor; simpl.
  - apply (inv_total _ _ Hi).
  - rewrite length_map; apply (inv_len _ _ Hi).
  - rewrite countb_map, (countb_ext _ (fun _ => false)), countb_false;
      [reflexivity|]. intros [| | |]; reflexivity.
  - rewrite (inv_active _ _ Hi), countb_map; apply countb_ext.
    intros [| | |]; reflexivity.
  - intros k' t' Hk' Hne.
    destruct (nth_error_set_nth _ _ _ _ _ Hk') as [[-> _]|[_ Hold]];
      [try rewrite Hj in Hne; congruence|].
    apply (inv_unbound _ _ Hi k' t' Hold); congruence.
  - intros j' Hj'; try rewrite Hj in Hj'; inversion Hj'; subst j'.
    eexists; split; [apply nth_error_set_nth_eq; eapply nth_error_Some_lt;
                     exact Ht|].
    simpl; repeat split; auto; try discriminate.
Qed.

Lemma inv_work N s i o s' :
  inv N s -> worker_report s i o = Some (Ok s') -> inv N s'.
Proof.
  intros Hi; unfold worker_report.
  destruct (task s) as [j|] eqn:Hj; [|discriminate].
  destruct (nth_error (tasks s) j) as [t|] eqn:Ht; [|discriminate].
  destruct (nth_error (workers s) i) as [[]|] eqn:Hw; try discriminate.
  destruct (waiting s && outcome_allowed o (status t)) eqn:Hc;
    [|discriminate].
  apply andb_true_iff in Hc as [_ Ho].
  intros H; inversion H; subst s'; clear H.
  destruct (inv_bound _ _ Hi j Hj)
    as [t0 [Ht0 [Hgang [Hact [Hyl [Hab Hrun]]]]]].
  rewrite Ht in Ht0; inversion Ht0; subst t0.
  assert (Hst : status t = ACTIVE \/ status t = YIELDING \/
                status t = ABORTING).
  { apply Hrun, existsb_exists; exists Running; split; [|reflexivity].
    eapply nth_error_In; exact Hw. }
  set (p := match o with WYield => WYielded | _ => Finished end).
  set (ws := set_nth i p (workers s)).
  set (y := yielded_workers s + match o with WYield => 1 | _ => 0 end).
  assert (Hy : y = countb is_yielded ws).
  { pose proof (countb_set_nth is_yielded i Running p (workers s) Hw) as E.
    unfold y, ws, p in *; rewrite (inv_yielded _ _ Hi).
    destruct o; simpl in *; lia. }
  assert (Hoact : status t = ACTIVE -> y = 0).
  { intros Ha; unfold y; rewrite (Hact Ha).
    destruct o; simpl in Ho; rewrite ?Ha in Ho; simpl in Ho;
      try discriminate; reflexivity. }
  assert (Hoab : status t = ABORTING -> y = 0).
  { intros Ha; unfold y; rewrite (Hab Ha).
    destruct o; simpl in Ho; rewrite ?Ha in Ho; simpl in Ho;
      try discriminate; reflexivity. }
  constructor; simpl.
  - apply (inv_total _ _ Hi).
  - unfold ws; rewrite set_nth_length; apply (inv_len _ _ Hi).
  - exact Hy.
  - pose proof (countb_set_nth is_engaged i Running p (workers s) Hw) as E.
    rewrite (inv_active _ _ Hi); unfold ws, p in *; destruct o; simpl in *;
      lia.
  - intros k' t' Hk' Hne.
    destruct (nth_error_set_nth _ _ _ _ _ Hk') as [[-> _]|[_ Hold]];
      [try rewrite Hj in Hne; congruence|].
    apply (inv_unbound _ _ Hi k' t' Hold); congruence.
  - intros j' Hj'; assert (j' = j) by congruence; subst j'.
    eexists; split; [apply nth_error_set_nth_eq; eapply nth_error_Some_lt;
                     exact Ht|].
    fold p ws y; simpl; split; [exact Hgang|].
    destruct (existsb is_running ws) eqn:Hex.
    + repeat split; auto.
      intros Hyd; rewrite Hyd in Hst; intuition discriminate.
    + destruct Hst as [Hs|[Hs|Hs]]; rewrite Hs.
      * repeat split; intros; discriminate.
      * destruct (Nat.eqb_spec y (active_workers s));
          repeat split; intros; try discriminate; auto.
      * repeat split; intros; try discriminate; auto.
Qed.

Lemma inv_barrier N s s' :
  inv N s -> wait_for_gang s = Some (Ok s') -> inv N s'.
Proof.
  intros Hi; unfold wait_for_gang.
  destruct (task s) as [j|] eqn:Hj; [|discriminate].
  destruct (nth_error (tasks s) j) as [t|] eqn:Ht; [|discriminate].
  destruct (waiting s && negb (existsb is_running (workers s)));
    [|discriminate].
  destruct (inv_bound _ _ Hi j Hj) as [t0 [Ht0 [Hgang Hrest]]].
  rewrite Ht in Ht0; inversion Ht0; subst t0.
  assert (Hreset : forall st, st = COMPLETED \/ st = ABORTED ->
            reset s j (set_status t st) = Some (Ok s') -> inv N s').
  { intros st Hst; unfold reset.
    destruct (set_gang (set_status t st) false) as [t1|] eqn:Hg;
      [|discriminate].
    apply set_gang_some in Hg as [Hg1 [Hg2 _]]; simpl in Hg2.
    intros H; inversion H; subst s'; clear H.
    constructor; simpl.
    - apply (inv_total _ _ Hi).
    - rewrite length_map; apply (inv_len _ _ Hi).
    - rewrite countb_map, countb_false; reflexivity.
    - rewrite countb_map, countb_false; reflexivity.
    - intros k' t' Hk' _.
      destruct (nth_error_set_nth _ _ _ _ _ Hk') as [[-> ->]|[Hne Hold]].
      + rewrite Hg1, Hg2; split; [reflexivity|]; intuition.
      + apply (inv_unbound _ _ Hi k' t' Hold); congruence.
    - discriminate. }
  destruct (status t) eqn:Hs; try discriminate.
  - destruct (yielded_workers s =? active_workers s); [|discriminate].
    intros H; inversion H; subst s'; clear H.
    constructor; simpl; try apply Hi.
    + intros k' t' Hk' Hne; apply (inv_unbound _ _ Hi k' t' Hk'); congruence.
    + intros j' Hj'; assert (j' = j) by congruence; subst j'.
      exists t; rewrite Hs; repeat split; auto; apply Hrest; reflexivity.
  - apply Hreset; auto.
  - apply Hreset; auto.
Qed.

Lemma inv_step N s e s' : inv N s -> step s e = Some (Ok s') -> inv N s'.
Proof.
  destruct e; simpl.
  - apply inv_start.
  - apply inv_continue.
  - apply inv_yield.
  - apply inv_abort.
  - apply inv_work.
  - apply inv_barrier.
Qed.

Lemma inv_reachable N reqs s : reachable N reqs s -> inv N s.
Proof.
  induction 1 as [|s e s' _ IH Hs]; [apply inv_init|].
  eapply inv_step; eauto.
Qed.

Lemma run_reachable N reqs s evs s' :
  reachable N reqs s -> run s evs = Some (Ok s') -> reachable N reqs s'.
Proof.
  revert s; induction evs as [|e evs IH]; intros s Hr; simpl.
  - intros H; inversion H; subst; exact Hr.
  - destruct (step s e) as [[s1|m]|] eqn:Hs; try discriminate.
    apply IH; econstructor; eauto.
Qed.

(** ** C3: continuing a completed task is an idempotent no-op *)

(** Claim C3: for a task whose status is [Completed], [continue_task]
    returns at once leaving the whole gang state unchanged (task statuses,
    counters, workers, calls of [work]), however many times it is called. *)
Theorem continue_completed_noop (s : State) (k : nat) (t : Task)
  (Hk : nth_error (tasks s) k = Some t)
  (Hc : status t = COMPLETED) :
  step s (EContinue k) = Some (Ok s) /\
  forall m, run s (repeat (EContinue k) m) = Some (Ok s).
Proof.
  assert (H1 : step s (EContinue k) = Some (Ok s)).
  { simpl; unfold continue_task; rewrite Hk, Hc; reflexivity. }
  split; [exact H1|].
  induction m as [|m IH]; simpl; [reflexivity|].
  simpl in H1; rewrite H1; exact IH.
Qed.

Lemma continue_completed_noop_witness :
  let s := mkState [mkTask COMPLETED false 2 2; mkTask INACTIVE false 0 1] 2
             None 0 0 [Parked; Parked] [1; 0] false in
  nth_error (tasks s) 0 = Some (mkTask COMPLETED false 2 2) /\
  step s (EContinue 0) = Some (Ok s).
Proof.
  intros s; split; [reflexivity|].
  apply (continue_completed_noop s 0 (mkTask COMPLETED false 2 2));
    reflexivity.
Defined.

(** ** C8: dispatching on a busy gang is fatal *)

(** Claim C8: on a gang already bound to a task, [start_task] with any task
    (another one or the same) halts on a fatal assertion, leaving nothing
    queued or overwritten; and [set_gang] on a task whose gang pointer is
    already non-null, attaching it to a gang, fails its assertion. *)
Theorem start_on_busy_gang_halts (s : State) (j k : nat) (t : Task)
  (Hbusy : task s = Some j)
  (Hk : nth_error (tasks s) k = Some t) :
  step s (EStart k) = Some (Halt "Gang currently tied to a task"%string) /\
  (forall t0 : Task, gang t0 = true -> set_gang t0 true = None).
Proof.
  split.
  - simpl; unfold start_task; rewrite Hk, Hbusy; reflexivity.
  - intros t0 Hg; unfold set_gang; rewrite Hg; reflexivity.
Qed.

Lemma start_on_busy_gang_halts_witness :
  let s := mkState [mkTask ACTIVE true 2 2; mkTask INACTIVE false 0 1] 2
             (Some 0) 2 0 [Running; Running] [] true in
  step s (EStart 1) = Some (Halt "Gang currently tied to a task"%string).
Proof.
  intros s.
  apply (proj1 (start_on_busy_gang_halts s 0 1 (mkTask INACTIVE false 0 1)
                  eq_refl eq_refl)).
Defined.

(** ** C2: bounds on the gang's counters *)

Lemma countb_yielded_le_engaged ws :
  countb is_yielded ws <= countb is_engaged ws.
Proof.
  unfold countb; induction ws as [|w ws IH]; simpl; auto.
  destruct w; simpl; lia.
Qed.

(** A running worker is engaged but not yielded. *)
Lemma countb_yielded_lt_engaged ws i :
  nth_error ws i = Some Running ->
  countb is_yielded ws < countb is_engaged ws.
Proof.
  revert i; induction ws as [|w ws IH]; intros [|i] H; simpl in H;
    try discriminate.
  - inversion H; subst w.
    pose proof (countb_yielded_le_engaged ws) as Hle; unfold countb in *;
      simpl; lia.
  - specialize (IH i H); unfold countb in *; destruct w; simpl; lia.
Qed.

(** Claim C2: in every reachable state of a gang of [N] workers,
    [0 <= yielded_workers <= active_workers <= total_workers = N]; and when
    the barrier [wait_for_gang] returns, either the round yielded (the task
    is [Yielded] and [yielded_workers = active_workers]) or it completed or
    aborted (the task is [Completed] or [Aborted] and the gang's reset has
    brought both counters to [0]). *)
Theorem gang_counters_bounded (N : nat) (reqs : list nat) (s : State)
  (Hr : reachable N reqs s) :
  0 <= yielded_workers s <= active_workers s /\
  active_workers s <= total_workers s /\ total_workers s = N /\
  (forall s', step s EBarrier = Some (Ok s') ->
   (yielded_workers s' = 0 \/ yielded_workers s' = active_workers s') /\
   exists j t', task s = Some j /\ nth_error (tasks s') j = Some t' /\
   ((status t' = YIELDED /\ yielded_workers s' = active_workers s') \/
    ((status t' = COMPLETED \/ status t' = ABORTED) /\
     yielded_workers s' = 0 /\ active_workers s' = 0))).
Proof.
  pose proof (inv_reachable _ _ _ Hr) as Hi.
  pose proof (countb_yielded_le_engaged (workers s)).
  pose proof (countb_le_length is_engaged (workers s)).
  rewrite (inv_yielded _ _ Hi), (inv_active _ _ Hi), (inv_total _ _ Hi).
  rewrite (inv_len _ _ Hi) in *.
  split; [lia|]; split; [lia|]; split; [reflexivity|].
  intros s' Hs; simpl in Hs; unfold wait_for_gang in Hs.
  destruct (task s) as [j|] eqn:Hj; [|discriminate].
  destruct (nth_error (tasks s) j) as [t|] eqn:Ht; [|discriminate].
  destruct (waiting s && negb (existsb is_running (workers s))) eqn:Hw;
    [|discriminate].
  destruct (status t) eqn:Hs0; try discriminate.
  - destruct (Nat.eqb_spec (yielded_workers s) (active_workers s)) as [Hya|];
      [|discriminate].
    inversion Hs; subst s'; clear Hs; simpl.
    split; [right; exact Hya|].
    exists j, t; split; [reflexivity|]; split; [exact Ht|]; left; auto.
  - unfold reset in Hs.
    destruct (set_gang _ false) as [t1|] eqn:Hg; [|discriminate].
    apply set_gang_some in Hg as [_ [Hg _]]; simpl in Hg.
    inversion Hs; subst s'; clear Hs; simpl.
    split; [left; reflexivity|].
    exists j, t1; split; [reflexivity|]; split;
      [apply nth_error_set_nth_eq; eapply nth_error_Some_lt; exact Ht|].
    right; auto.
  - unfold reset in Hs.
    destruct (set_gang _ false) as [t1|] eqn:Hg; [|discriminate].
    apply set_gang_some in Hg as [_ [Hg _]]; simpl in Hg.
    inversion Hs; subst s'; clear Hs; simpl.
    split; [left; reflexivity|].
    exists j, t1; split; [reflexivity|]; split;
      [apply nth_error_set_nth_eq; eapply nth_error_Some_lt; exact Ht|].
    right; auto.
Qed.

Lemma gang_counters_bounded_witness :
  reachable 2 [2] (mkState [mkTask YIELDED true 2 2] 2 (Some 0) 2 2
                     [WYielded; WYielded] [0; 1] true) /\
  (yielded_workers (mkState [mkTask YIELDED true 2 2] 2 (Some 0) 2 2
                      [WYielded; WYielded] [0; 1] false) = 0 \/
   yielded_workers (mkState [mkTask YIELDED true 2 2] 2 (Some 0) 2 2
                      [WYielded; WYielded] [0; 1] false) =
   active_workers (mkState [mkTask YIELDED true 2 2] 2 (Some 0) 2 2
                     [WYielded; WYielded] [0; 1] false)).
Proof.
  assert (Hr : reachable 2 [2] (mkState [mkTask YIELDED true 2 2] 2 (Some 0)
                                  2 2 [WYielded; WYielded] [0; 1] true)).
  { apply (run_reachable 2 [2] (init 2 [2])
             [EStart 0; EYield; EWork 0 WYield; EWork 1 WYield]);
      [constructor | reflexivity]. }
  split; [exact Hr|].
  apply (proj1 (proj2 (proj2 (proj2 (gang_counters_bounded 2 [2] _ Hr)))
                  _ eq_refl)).
Defined.

(** ** C1: the task status moves along the transition graph *)

Lemma set_nth_task_cases (ts : list Task) (j : nat) (tnew : Task) (k : nat)
  (t t' : Task) :
  nth_error ts k = Some t -> nth_error (set_nth j tnew ts) k = Some t' ->
  (k = j /\ t' = tnew) \/ t' = t.
Proof.
  intros Hk Hk'; destruct (nth_error_set_nth _ _ _ _ _ Hk') as [[-> ->]|[_ H]].
  - left; auto.
  - right; congruence.
Qed.

(** Claim C1: in every step of a reachable gang, the status of each task
    [k] either stays put or takes one edge of the transition graph, and
    only on the event the graph names: [Inactive -> Active] when the task
    is dispatched; [Active -> Yielding] on a yield request; [Yielding ->
    Yielded] on a worker's report that leaves no worker running and every
    active worker yielded; [Yielded -> Active] when the task is continued;
    [Active/Yielding -> Aborting] on an abort request; [Aborting ->
    Aborted] when the barrier returns with no worker running or parked at
    its yield point; [Active -> Completing] on the last report of a round
    in which every worker finished; [Completing -> Completed] when the
    barrier returns.  [Completed] is never left, no status ever becomes
    [Inactive] again, and [Aborted] is left only when the task is
    dispatched anew, which begins a new invocation. *)
Theorem status_moves_along_edges (N : nat) (reqs : list nat)
  (s s' : State) (e : Event)
  (Hr : reachable N reqs s) (Hs : step s e = Some (Ok s'))
  (k : nat) (t t' : Task)
  (Hk : nth_error (tasks s) k = Some t)
  (Hk' : nth_error (tasks s') k = Some t') :
  status t' = status t \/
  (status t = INACTIVE /\ status t' = ACTIVE /\ e = EStart k) \/
  (status t = ACTIVE /\ status t' = YIELDING /\ e = EYield) \/
  (status t = YIELDING /\ status t' = YIELDED /\
   (exists i, e = EWork i WYield) /\
   existsb is_running (workers s') = false /\
   yielded_workers s' = active_workers s') \/
  (status t = YIELDED /\ status t' = ACTIVE /\ e = EContinue k) \/
  ((status t = ACTIVE \/ status t = YIELDING) /\ status t' = ABORTING /\
   e = EAbort) \/
  (status t = ABORTING /\ status t' = ABORTED /\ e = EBarrier /\
   existsb is_running (workers s) = false /\ yielded_workers s = 0) \/
  (status t = ACTIVE /\ status t' = COMPLETING /\
   (exists i, e = EWork i WDone) /\
   existsb is_running (workers s') = false) \/
  (status t = COMPLETING /\ status t' = COMPLETED /\ e = EBarrier) \/
  (status t = ABORTED /\ status t' = ACTIVE /\ e = EStart k).
Proof.
  pose proof (inv_reachable _ _ _ Hr) as Hi.
  assert (Hsame : t' = t -> status t' = status t) by (intros ->; reflexivity).
  destruct e as [k0|k0| | |i o|]; simpl in Hs.
  - (* start_task *)
    unfold start_task in Hs.
    destruct (nth_error (tasks s) k0) as [t0|] eqn:Ht0; [|discriminate].
    destruct (task s) as [j|] eqn:Hj; [discriminate|].
    destruct (status_eqb (status t0) COMPLETED) eqn:Hc;
      [inversion Hs; subst; left; apply Hsame; congruence|].
    destruct (_ =? 0); [discriminate|].
    destruct (set_gang t0 true) as [t1|] eqn:Hg; [|discriminate].
    inversion Hs; subst s'; clear Hs; simpl in Hk'.
    destruct (set_nth_task_cases _ _ _ _ _ _ Hk Hk') as [[-> ->] | ->];
      [|left; reflexivity].
    rewrite Ht0 in Hk; inversion Hk; subst t0.
    destruct (inv_unbound _ _ Hi _ t Ht0) as [_ Hst]; [congruence|].
    simpl; destruct Hst as [H|[H|H]]; rewrite H in *; try discriminate.
    + right; left; auto.
    + do 9 right; auto.
  - (* continue_task *)
    unfold continue_task in Hs.
    destruct (nth_error (tasks s) k0) as [t0|] eqn:Ht0; [|discriminate].
    destruct (status_eqb (status t0) COMPLETED);
      [inversion Hs; subst; left; apply Hsame; congruence|].
    destruct (task s) as [j|]; [|discriminate].
    destruct ((j =? k0) && status_eqb (status t0) YIELDED && negb (waiting s))
      eqn:Hc; [|discriminate].
    apply andb_true_iff in Hc as [Hc _]; apply andb_true_iff in Hc as [_ Hy].
    apply status_eqb_eq in Hy.
    inversion Hs; subst s'; clear Hs; simpl in Hk'.
    destruct (set_nth_task_cases _ _ _ _ _ _ Hk Hk') as [[-> ->] | ->];
      [|left; reflexivity].
    rewrite Ht0 in Hk; inversion Hk; subst t0.
    do 4 right; left; simpl; auto.
  - (* yield *)
    unfold yield in Hs.
    destruct (task s) as [j|];
      [|inversion Hs; subst; left; apply Hsame; congruence].
    destruct (nth_error (tasks s) j) as [t0|] eqn:Ht0; [|discriminate].
    destruct (status_eqb (status t0) ACTIVE) eqn:Ha;
      [|inversion Hs; subst; left; apply Hsame; congruence].
    apply status_eqb_eq in Ha.
    inversion Hs; subst s'; clear Hs; simpl in Hk'.
    destruct (set_nth_task_cases _ _ _ _ _ _ Hk Hk') as [[-> ->] | ->];
      [|left; reflexivity].
    rewrite Ht0 in Hk; inversion Hk; subst t0.
    do 2 right; left; simpl; auto.
  - (* abort_task *)
    unfold abort_task in Hs.
    destruct (task s) as [j|]; [|discriminate].
    destruct (nth_error (tasks s) j) as [t0|] eqn:Ht0; [|discriminate].
    destruct (status_eqb (status t0) ACTIVE || status_eqb (status t0) YIELDING)
      eqn:Ha; [|inversion Hs; subst; left; apply Hsame; congruence].
    inversion Hs; subst s'; clear Hs; simpl in Hk'.
    destruct (set_nth_task_cases _ _ _ _ _ _ Hk Hk') as [[-> ->] | ->];
      [|left; reflexivity].
    rewrite Ht0 in Hk; inversion Hk; subst t0.
    do 5 right; left; simpl; split; [|auto].
    destruct (status t); simpl in Ha; try discriminate; auto.
  - (* a worker reports *)
    unfold worker_report in Hs.
    destruct (task s) as [j|] eqn:Hj; [|discriminate].
    destruct (nth_error (tasks s) j) as [t0|] eqn:Ht0; [|discriminate].
    destruct (nth_error (workers s) i) as [[]|] eqn:Hw; try discriminate.
    destruct (waiting s && outcome_allowed o (status t0)) eqn:Hc;
      [|discriminate].
    apply andb_true_iff in Hc as [_ Ho].
    inversion Hs; subst s'; clear Hs; simpl in Hk'.
    destruct (set_nth_task_cases _ _ _ _ _ _ Hk Hk') as [[-> ->] | ->];
      [|left; reflexivity].
    rewrite Ht0 in Hk; inversion Hk; subst t0.
    destruct (inv_bound _ _ Hi j Hj) as [t0 [Ht1 [_ [_ [_ [_ Hrun]]]]]].
    rewrite Ht0 in Ht1; inversion Ht1; subst t0.
    assert (Hst : status t = ACTIVE \/ status t = YIELDING \/
                  status t = ABORTING).
    { apply Hrun, existsb_exists; exists Running; split; [|reflexivity].
      eapply nth_error_In; exact Hw. }
    simpl; destruct (existsb is_running _) eqn:Hex; [left; reflexivity|].
    destruct Hst as [Hs|[Hs|Hs]]; rewrite Hs.
    + (* the last report of an active round *)
      do 7 right; left; split; [reflexivity|]; split; [reflexivity|].
      split; [|reflexivity].
      destruct o; rewrite Hs in Ho; simpl in Ho; try discriminate.
      exists i; reflexivity.
    + destruct (Nat.eqb_spec (yielded_workers s
                  + match o with WYield => 1 | _ => 0 end)
                  (active_workers s)) as [Hya|]; [|left; reflexivity].
      do 3 right; left; split; [reflexivity|]; split; [reflexivity|].
      split; [|split; [reflexivity | exact Hya]].
      destruct o; rewrite Hs in Ho; simpl in Ho; try discriminate;
        [|exists i; reflexivity].
      (* a worker that finished cannot complete the yield *)
      exfalso.
      pose proof (countb_yielded_lt_engaged _ _ Hw).
      rewrite <- (inv_yielded _ _ Hi), <- (inv_active _ _ Hi) in *; lia.
    + left; reflexivity.
  - (* wait_for_gang returns *)
    unfold wait_for_gang in Hs.
    destruct (task s) as [j|] eqn:Hj; [|discriminate].
    destruct (nth_error (tasks s) j) as [t0|] eqn:Ht0; [|discriminate].
    destruct (waiting s && negb (existsb is_running (workers s))) eqn:Hw;
      [|discriminate].
    apply andb_true_iff in Hw as [_ Hw]; apply negb_true_iff in Hw.
    destruct (status t0) eqn:Hs0; try discriminate.
    + destruct (_ =? _); [|discriminate].
      inversion Hs; subst s'; left; apply Hsame; simpl in Hk'; congruence.
    + unfold reset in Hs.
      destruct (set_gang _ false) as [t1|] eqn:Hg; [|discriminate].
      apply set_gang_some in Hg as [_ [Hg _]]; simpl in Hg.
      inversion Hs; subst s'; clear Hs; simpl in Hk'.
      destruct (set_nth_task_cases _ _ _ _ _ _ Hk Hk') as [[-> ->] | ->];
        [|left; reflexivity].
      rewrite Ht0 in Hk; inversion Hk; subst t0.
      destruct (inv_bound _ _ Hi j Hj) as [t0 [Ht1 [_ [_ [_ [Hab _]]]]]].
      rewrite Ht0 in Ht1; inversion Ht1; subst t0.
      do 6 right; left; rewrite Hg; repeat split; auto.
    + unfold reset in Hs.
      destruct (set_gang _ false) as [t1|] eqn:Hg; [|discriminate].
      apply set_gang_some in Hg as [_ [Hg _]]; simpl in Hg.
      inversion Hs; subst s'; clear Hs; simpl in Hk'.
      destruct (set_nth_task_cases _ _ _ _ _ _ Hk Hk') as [[-> ->] | ->];
        [|left; reflexivity].
      rewrite Ht0 in Hk; inversion Hk; subst t0.
      do 8 right; left; rewrite Hg; repeat split; auto.
Qed.

Lemma status_moves_along_edges_witness :
  reachable 2 [2] (mkState [mkTask YIELDING true 2 2] 2 (Some 0) 2 1
                     [WYielded; Running] [0] true) /\
  yielded_workers (mkState [mkTask YIELDED true 2 2] 2 (Some 0) 2 2
                     [WYielded; WYielded] [0; 1] true) =
  active_workers (mkState [mkTask YIELDED true 2 2] 2 (Some 0) 2 2
                    [WYielded; WYielded] [0; 1] true).
Proof.
  assert (Hr : reachable 2 [2] (mkState [mkTask YIELDING true 2 2] 2 (Some 0)
                                  2 1 [WYielded; Running] [0] true)).
  { apply (run_reachable 2 [2] (init 2 [2]) [EStart 0; EYield; EWork 0 WYield]);
      [constructor | reflexivity]. }
  split; [exact Hr|].
  destruct (status_moves_along_edges 2 [2] _
              (mkState [mkTask YIELDED true 2 2] 2 (Some 0) 2 2
                 [WYielded; WYielded] [0; 1] true)
              (EWork 1 WYield) Hr eq_refl 0
              (mkTask YIELDING true 2 2) (mkTask YIELDED true 2 2)
              eq_refl eq_refl)
    as [H|[H|[H|[H|[H|[H|[H|[H|[H|H]]]]]]]]];
    simpl in H; try (apply proj1 in H; discriminate H);
    try discriminate H.
  - destruct H as (_ & _ & _ & _ & H); exact H.
  - destruct H as (_ & H & _); discriminate H.
Defined.

(** ** C4: the round started by [start_task] *)

Lemma running_from_map k g ws :
  (forall w, is_running (g w) = is_running w) ->
  running_from k (map g ws) = running_from k ws.
Proof.
  intros Hg; revert k; induction ws as [|w ws IH]; intros k; simpl; auto.
  rewrite Hg; destruct (is_running w); rewrite IH; reflexivity.
Qed.


Lemma in_round_step k n s e s' :
  in_round k n s -> e <> EBarrier -> step s e = Some (Ok s') ->
  in_round k n s'.
Proof.
  intros [Hw [Hj Hp]] He; destruct e as [k0|k0| | |i o|]; simpl.
  - unfold start_task; destruct (nth_error (tasks s) k0); [|discriminate].
    rewrite Hj; discriminate.
  - unfold continue_task; destruct (nth_error (tasks s) k0) as [t|];
      [|discriminate].
    destruct (status_eqb (status t) COMPLETED);
      [intros H; inversion H; subst; repeat split; auto|].
    rewrite Hj, Hw, !andb_false_r; discriminate.
  - unfold yield; rewrite Hj; destruct (nth_error (tasks s) k) as [t|];
      [|discriminate].
    destruct (status_eqb (status t) ACTIVE); intros H; inversion H; subst;
      repeat split; auto.
  - unfold abort_task; rewrite Hj; destruct (nth_error (tasks s) k) as [t|];
      [|discriminate].
    destruct (_ || _); intros H; inversion H; subst; repeat split; auto.
    simpl; rewrite running_from_map; [exact Hp|]. intros [| | |]; reflexivity.
  - unfold worker_report; rewrite Hj; destruct (nth_error (tasks s) k) as [t|];
      [|discriminate].
    destruct (nth_error (workers s) i) as [[]|] eqn:Hwi; try discriminate.
    destruct (_ && _); [|discriminate].
    intros H; inversion H; subst s'; clear H.
    repeat split; simpl; auto.
    rewrite <- Hp, <- app_assoc; apply Permutation_app_head; simpl.
    symmetry; refine (running_from_set_nth 0 i _ (workers s) Hwi _);
      destruct o; reflexivity.
  - congruence.
Qed.

Lemma in_round_run k n s evs s' :
  in_round k n s -> ~ In EBarrier evs -> run s evs = Some (Ok s') ->
  in_round k n s'.
Proof.
  revert s; induction evs as [|e evs IH]; intros s Hs Hin; simpl.
  - intros H; inversion H; subst; exact Hs.
  - destruct (step s e) as [[s1|m]|] eqn:He; try discriminate.
    apply IH; [|intros Hc; apply Hin; right; exact Hc].
    eapply in_round_step; eauto. intros ->; apply Hin; left; reflexivity.
Qed.

(** Claim C4, as stated: for every task requesting [R] workers, [start_task]
    grants [min(R, N)] workers and makes the task [Active].  False in three
    ways: for [R = 0] no worker is granted and [start_task] halts; on a
    [Completed] task it returns at once with nothing changed; on a gang
    already bound to a task it halts. *)
Lemma start_task_counterexample :
  step (init 2 [0]) (EStart 0) = Some (Halt "No workers granted"%string) /\
  reachable 1 [1] (mkState [mkTask COMPLETED false 1 1] 1 None 0 0 [Parked]
                     [0] false) /\
  step (mkState [mkTask COMPLETED false 1 1] 1 None 0 0 [Parked] [0] false)
    (EStart 0)
  = Some (Ok (mkState [mkTask COMPLETED false 1 1] 1 None 0 0 [Parked] [0]
                false)) /\
  step (mkState [mkTask ACTIVE true 2 2; mkTask INACTIVE false 0 2] 2 (Some 0)
          2 0 [Running; Running] [] true) (EStart 1)
  = Some (Halt "Gang currently tied to a task"%string).
Proof.
  split; [reflexivity|]; split; [|split; reflexivity].
  apply (run_reachable 1 [1] (init 1 [1]) [EStart 0; EWork 0 WDone; EBarrier]);
    [constructor | reflexivity].
Qed.

(** Claim C4, amended: on an idle gang of [N >= 1] workers (on a busy gang
    [start_task] halts, see C8), for a task that is not [Completed] and
    requests [R >= 1] workers, [start_task] sets the task's [actual_size]
    to [n = min(R, N)], binds it, resets [active_workers] to [n] and
    [yielded_workers] to [0], makes the task [Active] and blocks the caller;
    the caller stays blocked until [wait_for_gang] returns, and then
    [work(i)] has been called exactly once for each [i] in [0 .. n-1] and
    the task is [Yielded], [Aborted] or [Completed].  With [R = 0] such a
    task makes [start_task] halt on a fatal assertion; for a [Completed]
    task [start_task] returns at once and changes nothing. *)
Theorem start_task_round (N : nat) (reqs : list nat) (s : State) (k : nat)
  (t : Task)
  (Hr : reachable N reqs s) (HN : 1 <= N)
  (Hk : nth_error (tasks s) k = Some t)
  (Hidle : task s = None) :
  (status t = COMPLETED -> step s (EStart k) = Some (Ok s)) /\
  (status t <> COMPLETED -> requested_size t = 0 ->
   step s (EStart k) = Some (Halt "No workers granted"%string)) /\
  (status t <> COMPLETED -> 1 <= requested_size t ->
  exists s1, step s (EStart k) = Some (Ok s1) /\
  nth_error (tasks s1) k
    = Some (mkTask ACTIVE true (Nat.min (requested_size t) N)
              (requested_size t)) /\
  active_workers s1 = Nat.min (requested_size t) N /\
  yielded_workers s1 = 0 /\ waiting s1 = true /\
  forall evs s2, ~ In EBarrier evs -> run s1 evs = Some (Ok s2) ->
    waiting s2 = true /\ task s2 = Some k /\
    forall s3, step s2 EBarrier = Some (Ok s3) ->
      Permutation (work_calls s3) (seq 0 (Nat.min (requested_size t) N)) /\
      waiting s3 = false /\
      exists t3, nth_error (tasks s3) k = Some t3 /\
      (status t3 = YIELDED \/ status t3 = ABORTED \/ status t3 = COMPLETED)).
Proof.
  pose proof (inv_reachable _ _ _ Hr) as Hi.
  pose proof (inv_total _ _ Hi) as Htot.
  split; [|split].
  { intros Hc; simpl; unfold start_task; rewrite Hk, Hidle, Hc; reflexivity. }
  { intros Hc HR0; simpl; unfold start_task; rewrite Hk, Hidle.
    rewrite (status_eqb_spec_false _ _ Hc).
    rewrite HR0; reflexivity. }
  intros Hc HR.
  set (n := Nat.min (requested_size t) N).
  assert (Hn0 : (n =? 0) = false) by (apply Nat.eqb_neq; unfold n; lia).
  destruct (inv_unbound _ _ Hi k t Hk) as [Hg _]; [congruence|].
  simpl; unfold start_task; rewrite Hk, Hidle.
  rewrite (status_eqb_spec_false _ _ Hc).
  rewrite Htot; fold n; rewrite Hn0; unfold set_gang; rewrite Hg; simpl.
  eexists; split; [reflexivity|]; simpl.
  split; [apply nth_error_set_nth_eq; eapply nth_error_Some_lt; exact Hk|].
  split; [reflexivity|]; split; [reflexivity|]; split; [reflexivity|].
  intros evs s2 Hin Hrun.
  assert (H0 : in_round k n
                 (mkState (set_nth k (mkTask ACTIVE true n (requested_size t))
                             (tasks s)) N (Some k) n 0 (release n N) [] true)).
  { repeat split; simpl.
    rewrite running_from_release by (unfold n; lia); reflexivity. }
  destruct (in_round_run _ _ _ _ _ H0 Hin Hrun) as [Hw [Hj Hp]].
  split; [exact Hw|]; split; [exact Hj|].
  intros s3 Hs3; simpl in Hs3; unfold wait_for_gang in Hs3.
  rewrite Hj in Hs3.
  destruct (nth_error (tasks s2) k) as [t2|] eqn:Ht2; [|discriminate].
  destruct (waiting s2 && negb (existsb is_running (workers s2))) eqn:Hc2;
    [|discriminate].
  apply andb_true_iff in Hc2 as [_ Hc2]; apply negb_true_iff in Hc2.
  rewrite (running_from_none 0 _ Hc2), app_nil_r in Hp.
  destruct (status t2) eqn:Hs2; try discriminate.
  - destruct (yielded_workers s2 =? active_workers s2); [|discriminate].
    inversion Hs3; subst s3; simpl.
    split; [exact Hp|]; split; [reflexivity|].
    exists t2; split; [exact Ht2|left; exact Hs2].
  - unfold reset in Hs3.
    destruct (set_gang _ false) as [t1|] eqn:Hg1; [|discriminate].
    apply set_gang_some in Hg1 as [_ [Hg1 _]]; simpl in Hg1.
    inversion Hs3; subst s3; simpl.
    split; [exact Hp|]; split; [reflexivity|].
    exists t1; split;
      [apply nth_error_set_nth_eq; eapply nth_error_Some_lt; exact Ht2|].
    right; left; exact Hg1.
  - unfold reset in Hs3.
    destruct (set_gang _ false) as [t1|] eqn:Hg1; [|discriminate].
    apply set_gang_some in Hg1 as [_ [Hg1 _]]; simpl in Hg1.
    inversion Hs3; subst s3; simpl.
    split; [exact Hp|]; split; [reflexivity|].
    exists t1; split;
      [apply nth_error_set_nth_eq; eapply nth_error_Some_lt; exact Ht2|].
    right; right; exact Hg1.
Qed.

Lemma start_task_round_witness :
  reachable 2 [3] (init 2 [3]) /\
  step (init 2 [3]) (EStart 0)
  = Some (Ok (mkState [mkTask ACTIVE true 2 3] 2 (Some 0) 2 0
                [Running; Running] [] true)).
Proof.
  split; [constructor|].
  destruct (proj2 (proj2 (start_task_round 2 [3] (init 2 [3]) 0
                            (mkTask INACTIVE false 0 3) (reach_init 2 [3])
                            ltac:(lia) eq_refl eq_refl))
              ltac:(discriminate) ltac:(simpl; lia)) as [s1 [H _]].
  rewrite H; f_equal; f_equal.
  simpl in H; inversion H; reflexivity.
Defined.

End GangFacts.

(* ------------------------------------------------------------------ *)
(** ** Further facts about [CMSLockVerifier::assert_locked] *)

Module LockVerifierExtras.
Import LockVerifier.
Import LockVerifierFacts.

(** [ShouldNotReachHere] is reached exactly on a fully initialized runtime
    with a non-null [lock] and [ParallelGCThreads > 0], called by a thread
    that is none of VM, concurrent GC, Java or GC task thread. *)
Theorem should_not_reach_here_iff (e : Env) (lock p_lock : option Mutex) :
  assert_locked e lock p_lock = ShouldNotReachHere <->
  is_fully_initialized e = true /\ lock <> None /\
  ParallelGCThreads e <> 0 /\ kind (current e) = OtherThreadK.
Proof.
  unfold assert_locked, ShouldNotReachHere.
  destruct (is_fully_initialized e); cbn -[ptr_eqb].
  2:{ split; [discriminate | intros [H _]; discriminate]. }
  destruct lock as [l|].
  - destruct (ParallelGCThreads e =? 0) eqn:Hp;
      [apply Nat.eqb_eq in Hp | apply Nat.eqb_neq in Hp].
    + unfold assert_lock_strong, assert; destruct (owned_by_self e l);
        split; try discriminate; intuition.
    + unfold is_VM_thread, is_ConcurrentGC_thread, is_Java_thread,
        is_GC_task_thread.
      destruct (kind (current e)), p_lock; cbn -[ptr_eqb];
        unfold assert_lock_strong, assert; split_ifs;
        split; try discriminate; intuition congruence.
  - unfold assert; split_ifs; split; try discriminate; intuition.
Qed.

(** With a non-null [lock], neither CMS token flag is ever consulted. *)
Theorem nonnull_lock_ignores_tokens (init : bool) (pgc : nat) (cur : Thread)
  (vm cms : option Thread) (b1 b2 b1' b2' : bool) (l : Mutex)
  (p_lock : option Mutex) :
  assert_locked (mkEnv init pgc cur vm cms b1 b2) (Some l) p_lock =
  assert_locked (mkEnv init pgc cur vm cms b1' b2') (Some l) p_lock.
Proof. reflexivity. Qed.

(** With a null [lock], neither [ParallelGCThreads] nor the identity of
    [VMThread::vm_thread()] is ever consulted. *)
Theorem null_lock_ignores_pgc_and_vm_thread (init : bool) (pgc pgc' : nat)
  (cur : Thread) (vm vm' cms : option Thread) (b1 b2 : bool)
  (p_lock : option Mutex) :
  assert_locked (mkEnv init pgc cur vm cms b1 b2) None p_lock =
  assert_locked (mkEnv init pgc' cur vm' cms b1 b2) None p_lock.
Proof. reflexivity. Qed.

(** With a non-null [lock], the identities of [VMThread::vm_thread()] and
    [ConcurrentMarkSweepThread::cmst()] are consulted only when the caller
    is a GC task thread: for any other caller they can be anything. *)
Theorem nonnull_lock_roles_only_for_workers (init : bool) (pgc : nat)
  (cur : Thread) (vm cms vm' cms' : option Thread) (b1 b2 : bool)
  (l : Mutex) (p_lock : option Mutex)
  (Hkind : kind cur <> GCTaskThreadK) :
  assert_locked (mkEnv init pgc cur vm cms b1 b2) (Some l) p_lock =
  assert_locked (mkEnv init pgc cur vm' cms' b1 b2) (Some l) p_lock.
Proof.
  unfold assert_locked; cbn -[ptr_eqb].
  destruct init; [|reflexivity]; cbn -[ptr_eqb].
  destruct (pgc =? 0); [reflexivity|].
  unfold is_VM_thread, is_ConcurrentGC_thread, is_Java_thread,
    is_GC_task_thread.
  destruct (kind cur); try reflexivity; congruence.
Qed.

Lemma nonnull_lock_roles_only_for_workers_witness :
  kind javaT <> GCTaskThreadK /\
  assert_locked (mkEnv true 4 javaT (Some vmT) (Some cmsT) true true)
    (Some (mkMutex (Some javaT))) None =
  assert_locked (mkEnv true 4 javaT None None true true)
    (Some (mkMutex (Some javaT))) None.
Proof.
  split; [discriminate|].
  apply (nonnull_lock_roles_only_for_workers true 4 javaT (Some vmT)
           (Some cmsT) None None true true (mkMutex (Some javaT)) None).
  discriminate.
Defined.

(** A secondary lock [p_lock] changes the outcome only by making the call
    fail: with "Unexpected state" when [lock] is NULL, with "Possible race
    between this and parallel GC threads" when it is not. *)
Theorem p_lock_only_adds_failure (e : Env) (lock : option Mutex) (pl : Mutex) :
  assert_locked e lock (Some pl) = assert_locked e lock None \/
  assert_locked e lock (Some pl) =
    Fatal (match lock with
           | None => "Unexpected state"
           | Some _ => "Possible race between this and parallel GC threads"
           end)%string.
Proof.
  unfold assert_locked, assert_lock_strong, assert.
  destruct (is_fully_initialized e); cbn -[ptr_eqb]; [|left; reflexivity].
  destruct lock as [l|]; [|right; reflexivity].
  split_ifs; solve [left; reflexivity | right; reflexivity].
Qed.

(** With a non-null [lock], passing a [p_lock] that is unlocked or held by
    the caller is the same as passing NULL. *)
Theorem harmless_p_lock (e : Env) (l pl : Mutex)
  (Hpl : owner pl = None \/ owner pl = Some (current e)) :
  assert_locked e (Some l) (Some pl) = assert_locked e (Some l) None.
Proof.
  assert (Hc : negb (is_locked pl) || owned_by_self e pl = true).
  { unfold is_locked, owned_by_self.
    destruct Hpl as [H|H]; rewrite H; [reflexivity|].
    cbn -[ptr_eqb]; apply ptr_eqb_eq; reflexivity. }
  unfold assert_locked; destruct (is_fully_initialized e); [|reflexivity].
  cbn -[ptr_eqb is_locked owned_by_self].
  destruct (ParallelGCThreads e =? 0); [reflexivity|].
  destruct (is_VM_thread (current e) || is_ConcurrentGC_thread (current e)
            || is_Java_thread (current e)); [|reflexivity].
  unfold assert; rewrite Hc; reflexivity.
Qed.

Lemma harmless_p_lock_witness :
  owner (mkMutex (Some javaT)) = Some (current (sample_env true 4 javaT)) /\
  assert_locked (sample_env true 4 javaT) (Some (mkMutex (Some javaT)))
    (Some (mkMutex (Some javaT))) =
  assert_locked (sample_env true 4 javaT) (Some (mkMutex (Some javaT))) None.
Proof.
  split; [reflexivity|].
  apply (harmless_p_lock (sample_env true 4 javaT) (mkMutex (Some javaT))
           (mkMutex (Some javaT))).
  right; reflexivity.
Defined.

(** With a non-null [lock] that nobody holds, a fully initialized runtime
    passes the check only for a GC task thread with [ParallelGCThreads > 0]
    and a NULL [VMThread::vm_thread()] or [cmst()]: the NULL owner then
    compares equal to the NULL thread pointer. *)
Theorem unlocked_lock_check (e : Env) (p_lock : option Mutex)
  (Hinit : is_fully_initialized e = true) :
  assert_locked e (Some (mkMutex None)) p_lock = Pass <->
  kind (current e) = GCTaskThreadK /\ ParallelGCThreads e <> 0 /\
  (vm_thread e = None \/ cmst e = None).
Proof.
  unfold assert_locked; rewrite Hinit; cbn -[ptr_eqb].
  unfold assert_lock_strong, owned_by_self; cbn -[ptr_eqb].
  destruct (ParallelGCThreads e =? 0) eqn:Hp;
    [apply Nat.eqb_eq in Hp | apply Nat.eqb_neq in Hp].
  - split; [discriminate | intros [_ [H _]]; contradiction].
  - unfold is_VM_thread, is_ConcurrentGC_thread, is_Java_thread,
      is_GC_task_thread, ShouldNotReachHere.
    destruct (kind (current e)); cbn -[ptr_eqb];
      try (split; [discriminate | intros [H _]; discriminate]).
    rewrite assert_Pass, orb_true_iff, !ptr_eqb_eq.
    split.
    + intros [H _]; split; [reflexivity|]; split; [exact Hp|].
      destruct H as [H|H]; [left|right]; congruence.
    + intros (_ & _ & [H|H]); (split; [|reflexivity]); [left|right];
        congruence.
Qed.

Lemma unlocked_lock_check_witness :
  is_fully_initialized (mkEnv true 4 workerT (Some vmT) None true true)
    = true /\
  assert_locked (mkEnv true 4 workerT (Some vmT) None true true)
    (Some (mkMutex None)) None = Pass.
Proof.
  split; [reflexivity|].
  apply (proj2 (unlocked_lock_check
                  (mkEnv true 4 workerT (Some vmT) None true true) None
                  eq_refl)).
  split; [reflexivity|]; split; [discriminate | right; reflexivity].
Defined.

(** With a NULL [lock] and [p_lock] on a fully initialized runtime: a
    concurrent GC thread that is not [cmst()] fails the identity check,
    whatever its CMS token; a Java thread or a thread of no listed role
    fails with "Unexpected thread type". *)
Theorem null_lock_failure_messages (e : Env)
  (Hinit : is_fully_initialized e = true) :
  (kind (current e) = ConcurrentGCThreadK -> cmst e <> Some (current e) ->
   assert_locked e None None =
     Fatal "In CMS, CMS thread is the only Conc GC thread."%string) /\
  (kind (current e) = JavaThreadK \/ kind (current e) = OtherThreadK ->
   assert_locked e None None = Fatal "Unexpected thread type"%string).
Proof.
  unfold assert_locked; rewrite Hinit; cbn -[ptr_eqb].
  unfold is_ConcurrentGC_thread, is_VM_thread, is_GC_task_thread.
  split.
  - intros Hk Hc; rewrite Hk; cbn -[ptr_eqb].
    destruct (ptr_eqb (Some (current e)) (cmst e)) eqn:He; [|reflexivity].
    apply ptr_eqb_eq in He; congruence.
  - intros [Hk|Hk]; rewrite Hk; reflexivity.
Qed.

Lemma null_lock_failure_messages_witness :
  is_fully_initialized (sample_env true 4 (mkThread 7 ConcurrentGCThreadK))
    = true /\
  assert_locked (sample_env true 4 (mkThread 7 ConcurrentGCThreadK)) None None
    = Fatal "In CMS, CMS thread is the only Conc GC thread."%string.
Proof.
  split; [reflexivity|].
  apply (proj1 (null_lock_failure_messages
                  (sample_env true 4 (mkThread 7 ConcurrentGCThreadK))
                  eq_refl)).
  - reflexivity.
  - discriminate.
Defined.

End LockVerifierExtras.

(* ------------------------------------------------------------------ *)
(** ** Further facts about [YieldingFlexibleGangTask] *)

Module GangExtras.
Import Gang.

Lemma last_nonempty_default {A} (x d d' : A) (l : list A) :
  last (x :: l) d = last (x :: l) d'.
Proof.
  revert x; induction l as [|y l IH]; intros x; [reflexivity|].
  change (last (y :: l) d = last (y :: l) d'); apply IH.
Qed.

(** A sequence of [set_gang] calls fails exactly when it sets a non-null
    gang over a non-null one without an intermediate [set_gang(NULL)]; when
    it succeeds the task holds the last gang set (or its own, for no call),
    and its status and sizes are untouched. *)
Theorem set_gangs_protocol (t : Task) (gs : list bool) :
  match set_gangs t gs with
  | None => clobbers (gang t) gs = true
  | Some t' =>
      clobbers (gang t) gs = false /\
      t' = mkTask (status t) (last gs (gang t)) (actual_size t)
             (requested_size t)
  end.
Proof.
  revert t; induction gs as [|g gs IH]; intros t.
  - destruct t; split; reflexivity.
  - cbn [set_gangs clobbers]. unfold set_gang at 1.
    destruct (gang t && g) eqn:Hg; [reflexivity|].
    specialize (IH (mkTask (status t) g (actual_size t) (requested_size t))).
    cbn [gang status actual_size requested_size] in IH.
    destruct (set_gangs _ gs) as [t'|].
    + destruct IH as [H1 H2]; split; [rewrite H1; reflexivity|].
      rewrite H2; destruct gs as [|b gs]; [reflexivity|].
      change (last (g :: b :: gs) (gang t)) with (last (b :: gs) (gang t)).
      rewrite (last_nonempty_default b (gang t) g); reflexivity.
    + rewrite IH; apply orb_true_r.
Qed.

(** At most one of [yielded()], [completed()], [aborted()], [active()]
    holds, and none does while the task is [INACTIVE] or in one of the
    transient states [YIELDING], [ABORTING], [COMPLETING]. *)
Theorem status_queries_exclusive (t : Task) :
  (if yielded t then 1 else 0) + (if completed t then 1 else 0) +
  (if aborted t then 1 else 0) + (if active t then 1 else 0) =
  match status t with
  | INACTIVE | YIELDING | ABORTING | COMPLETING => 0
  | _ => 1
  end.
Proof.
  unfold yielded, completed, aborted, active; destruct (status t); reflexivity.
Qed.

End GangExtras.
